(** * The discovery queue of go/discovery/discovery.go

    An ordered queue of discovery requests with no duplicates, served by at
    most [maxConcurrency] goroutines.  The development embeds the methods of
    [Queue] as functions on an explicit state and states the properties of
    the run loop [HandleRequests] over schedules of channel events. *)

From Stdlib Require Import ZArith Lia.
From stdpp Require Import base option list gmap strings.

Local Open Scope Z_scope.

(** ** Go's [uint]

    [concurrency] and [maxConcurrency] are of Go type [uint]: 64 bits wide on
    the 64-bit targets the program is built for.  A value is a [Z] in
    [0, 2^64); [++] and [--] wrap around. *)

Definition uint_bits : Z := 64.
Definition uint_modulus : Z := 2 ^ uint_bits.
Definition uint_max : Z := uint_modulus - 1.
Definition uint_wrap (z : Z) : Z := z mod uint_modulus.
Definition uint_ok (z : Z) : Prop := 0 <= z < uint_modulus.
Definition uint_incr (z : Z) : Z := uint_wrap (z + 1).
Definition uint_decr (z : Z) : Z := uint_wrap (z - 1).

(** ** Results of code that may call [log.Fatal]

    [log.Fatal] prints its message and ends the process: nothing after it
    runs.  A computation that may reach it returns a [Result]. *)

Inductive Result (A : Type) : Type :=
| Ok (a : A)
| Fatal (msg : string).
Arguments Ok {A} a.
Arguments Fatal {A} msg.

#[global] Instance result_ret : MRet Result := λ A a, Ok a.
#[global] Instance result_bind : MBind Result := λ A B f r,
  match r with
  | Ok a => f a
  | Fatal msg => Fatal msg
  end.

Section discovery.

(** [inst.InstanceKey] is declared in package [inst], outside this file; the
    queue uses it as a map key and compares it with [==].  The development
    is parametric in it: any type with decidable equality that can key a
    [gmap], and its zero value [emptyKey] (line 71). *)
Context {K : Type} `{Countable K}.
Variable emptyKey : K.

(** ** The [Queue] struct (lines 43-69)

    The fields that hold data.  [lock] guards the other fields; every method
    that takes it runs on the goroutine of [HandleRequests], so the methods
    are modelled as atomic functions of the state.  [done], [inputChan] and
    [processor] connect the queue to its environment and are modelled by
    [World] and [Event] below. *)

Record Queue : Type := mkQueue {
  concurrency : Z;
  knownKeys : gmap K bool;
  maxConcurrency : Z;
  queue : list K;
}.

(** [NewQueue] (lines 74-86). *)
Definition NewQueue (maxConcurrency : Z) : Queue :=
  {| concurrency := 0;
     knownKeys := ∅;
     maxConcurrency := maxConcurrency;
     queue := [] |}.

(** [push] (lines 90-99): add the key to the slice if it is not in
    [knownKeys]. *)
Definition push (key : K) (q : Queue) : Queue :=
  match knownKeys q !! key with
  | None =>
      {| concurrency := concurrency q;
         knownKeys := <[key := true]> (knownKeys q);
         maxConcurrency := maxConcurrency q;
         queue := queue q ++ [key] |}
  | Some _ => q
  end.

(** [pop] (lines 102-110): [log.Fatal] on an empty slice, otherwise the
    first element, with the slice advanced and the key deleted from
    [knownKeys]. *)
Definition pop (q : Queue) : Result (K * Queue) :=
  match queue q with
  | [] => Fatal "q.pop() called on empty queue"
  | key :: rest =>
      Ok (key,
          {| concurrency := concurrency q;
             knownKeys := delete key (knownKeys q);
             maxConcurrency := maxConcurrency q;
             queue := rest |})
  end.

(** [acknowledgeJob] (lines 128-133). *)
Definition acknowledgeJob (key : K) (q : Queue) : Queue :=
  {| concurrency := uint_decr (concurrency q);
     knownKeys := delete key (knownKeys q);
     maxConcurrency := maxConcurrency q;
     queue := queue q |}.

(** ** The queue and its environment

    [jobs] are the goroutines started by [dispatch] whose key has not yet
    been received from [done] (the channel is unbuffered: a goroutine holds
    its key until the run loop takes it).  [called] lists, in order, the
    keys [processor] has been started on, [warned] the keys a warning was
    logged for. *)

Record World : Type := mkWorld {
  wq : Queue;
  jobs : list K;
  called : list K;
  warned : list K;
}.

Definition initial (maxConcurrency : Z) : World :=
  {| wq := NewQueue maxConcurrency; jobs := []; called := []; warned := [] |}.

Definition with_queue (f : Queue → Queue) (w : World) : World :=
  {| wq := f (wq w); jobs := jobs w; called := called w; warned := warned w |}.

(** [go func() { q.processor(key); q.done <- key }()] (lines 120-123). *)
Definition spawn (key : K) (w : World) : World :=
  {| wq := wq w; jobs := jobs w ++ [key];
     called := called w ++ [key]; warned := warned w |}.

(** One goroutine of [key] leaves the running ones. *)
Fixpoint remove_first (key : K) (l : list K) : list K :=
  match l with
  | [] => []
  | x :: l' => if decide (x = key) then l' else x :: remove_first key l'
  end.

(** [key := <-q.done] (lines 161 and 182): the goroutine of [key] hands its
    key over and ends. *)
Definition receive_done (key : K) (w : World) : World :=
  {| wq := wq w; jobs := remove_first key (jobs w);
     called := called w; warned := warned w |}.

(** [log.Warningf] (lines 177-178). *)
Definition warn (key : K) (w : World) : World :=
  {| wq := wq w; jobs := jobs w;
     called := called w; warned := warned w ++ [key] |}.

(** [dispatch] (lines 113-124). *)
Definition dispatch (w : World) : Result World :=
  '(key, q1) ← pop (wq w);
  let q2 :=
    {| concurrency := uint_incr (concurrency q1);
       knownKeys := <[key := true]> (knownKeys q1);
       maxConcurrency := maxConcurrency q1;
       queue := queue q1 |} in
  Ok (spawn key {| wq := q2; jobs := jobs w;
                   called := called w; warned := warned w |}).

(** The admission guard
    [q.concurrency < q.maxConcurrency && len(q.queue) > 0]
    (lines 138 and 149). *)
Definition admits (q : Queue) : bool :=
  (concurrency q <? maxConcurrency q) && (0 <? Z.of_nat (length (queue q))).

(** [maybeDispatch] (lines 136-142). *)
Definition maybeDispatch (w : World) : Result World :=
  if admits (wq w) then dispatch w else Ok w.

(** [queueAndMaybeDispatch] (lines 146-153). *)
Definition queueAndMaybeDispatch (key : K) (w : World) : Result World :=
  let w1 := with_queue (push key) w in
  if admits (wq w1) then dispatch w1 else Ok w1.

(** ** Channel events and the run loop

    A schedule lists what the run loop receives, in the order it receives
    it: a key from [inputChan], the closing of [inputChan], or a key from
    [done]. *)

Inductive Event : Type :=
| Arrive (key : K)
| Close
| Done (key : K).

(** What a run of [HandleRequests] over a schedule comes to. *)
Inductive Outcome : Type :=
| Returned (w : World)   (* the function returned *)
| Waiting (w : World)    (* schedule used up: blocked on a receive *)
| Crashed (msg : string) (* [log.Fatal] *)
| Infeasible.            (* the schedule names an event that cannot occur *)

(** The loop condition of [cleanup] (line 159). *)
Definition cleanup_continues (q : Queue) : bool :=
  (0 <? concurrency q) && (0 <? Z.of_nat (length (queue q))).

(** [cleanup] (lines 158-164).  Only [done] can deliver once [inputChan] is
    closed. *)
Fixpoint cleanup (sched : list Event) (w : World) : Outcome :=
  if cleanup_continues (wq w) then
    match maybeDispatch w with
    | Fatal msg => Crashed msg
    | Ok w1 =>
        match sched with
        | [] => Waiting w1
        | Done key :: sched' =>
            if decide (key ∈ jobs w1) then
              cleanup sched'
                (with_queue (acknowledgeJob key) (receive_done key w1))
            else Infeasible
        | _ :: _ => Infeasible
        end
    end
  else Returned w.

(** [HandleRequests] (lines 168-186). *)
Fixpoint HandleRequests (sched : list Event) (w : World) : Outcome :=
  match sched with
  | [] => Waiting w
  | Close :: sched' => cleanup sched' w
  | Arrive key :: sched' =>
      if decide (key = emptyKey) then HandleRequests sched' (warn key w)
      else
        match queueAndMaybeDispatch key w with
        | Fatal msg => Crashed msg
        | Ok w1 => HandleRequests sched' w1
        end
  | Done key :: sched' =>
      if decide (key ∈ jobs w) then
        HandleRequests sched'
          (with_queue (acknowledgeJob key) (receive_done key w))
      else Infeasible
  end.

(** ** Single operations

    The run loop is built from three operations on the state: [push],
    [dispatch] under the admission guard, and the handling of a completion,
    which is the receipt of a key from [done] followed by [acknowledgeJob].
    Only a goroutine started by [dispatch] ever sends on [done], so a
    completion is enabled for the keys in [jobs]. *)

Inductive Op : Type :=
| OpPush (key : K)
| OpDispatch
| OpDone (key : K).

Definition complete (key : K) (w : World) : World :=
  with_queue (acknowledgeJob key) (receive_done key w).

Definition exec (op : Op) (w : World) : option World :=
  match op with
  | OpPush key => Some (with_queue (push key) w)
  | OpDispatch =>
      if admits (wq w) then
        match dispatch w with
        | Ok w' => Some w'
        | Fatal _ => None
        end
      else None
  | OpDone key =>
      if decide (key ∈ jobs w) then Some (complete key w) else None
  end.

Fixpoint run (ops : list Op) (w : World) : option World :=
  match ops with
  | [] => Some w
  | op :: ops' =>
      match exec op w with
      | Some w' => run ops' w'
      | None => None
      end
  end.

(** The keys a run really enqueued, in order: those pushed while absent from
    [knownKeys]. *)
Definition enqueues (op : Op) (w : World) : list K :=
  match op with
  | OpPush key =>
      match knownKeys (wq w) !! key with
      | None => [key]
      | Some _ => []
      end
  | _ => []
  end.

Fixpoint accepted (ops : list Op) (w : World) : list K :=
  match ops with
  | [] => []
  | op :: ops' =>
      match exec op w with
      | Some w' => enqueues op w ++ accepted ops' w'
      | None => []
      end
  end.

(** The world an outcome ends in, if any. *)
Definition final (o : Outcome) : option World :=
  match o with
  | Returned w | Waiting w => Some w
  | Crashed _ | Infeasible => None
  end.

(** ** State invariants *)

(** [knownKeys] holds exactly the queued and the running keys, each once. *)
Definition known_inv (w : World) : Prop :=
  (∀ k, is_Some (knownKeys (wq w) !! k) ↔ k ∈ queue (wq w) ∨ k ∈ jobs w)
  ∧ NoDup (queue (wq w) ++ jobs w).

(** [concurrency] counts the running goroutines and stays within the
    configured maximum. *)
Definition count_inv (maxC : Z) (w : World) : Prop :=
  maxConcurrency (wq w) = maxC
  ∧ concurrency (wq w) = Z.of_nat (length (jobs w))
  ∧ concurrency (wq w) <= maxC.

(** The keys a schedule delivers on [inputChan] before it is closed. *)
Fixpoint arrivals (sched : list Event) : list K :=
  match sched with
  | [] => []
  | Arrive key :: sched' => key :: arrivals sched'
  | Close :: _ => []
  | Done _ :: sched' => arrivals sched'
  end.


(** A queue that never started a goroutine. *)
Definition idle (w : World) : Prop :=
  concurrency (wq w) = 0 ∧ jobs w = [] ∧ called w = [].

(** Every entry of [knownKeys] carries the value [true], the only value the
    code stores (lines 93 and 117). *)
Definition values_true (q : Queue) : Prop :=
  ∀ k b, knownKeys q !! k = Some b → b = true.

(** A schedule of arrivals only: [inputChan] stays open and no job
    completes. *)
Definition only_arrivals (sched : list Event) : Prop :=
  ∀ ev, ev ∈ sched → ∃ key, ev = Arrive key.

(** While no job has completed, a key waits only when every slot is taken. *)
Definition saturated (w : World) : Prop :=
  queue (wq w) ≠ [] → concurrency (wq w) = maxConcurrency (wq w).

(** Every running goroutine was started on its key. *)
Definition jobs_called (w : World) : Prop :=
  ∀ k, k ∈ jobs w → k ∈ called w.

End discovery.

Arguments Queue K {_ _}.
Arguments World K {_ _}.
Arguments Event K : clear implicits.
Arguments Outcome K {_ _}.
Arguments Op K : clear implicits.

(** ** Sample keys for the worked runs

    A host name and a port; the zero value has the empty name and port 0. *)

Definition SampleKey : Type := string * Z.
Definition sampleEmpty : SampleKey := (""%string, 0).
Definition keyA : SampleKey := ("db-a"%string, 3306).
Definition keyB : SampleKey := ("db-b"%string, 3306).
Definition keyC : SampleKey := ("db-c"%string, 3306).

(** A queue that holds [keyA] (running) and [keyB] (waiting), as left by the
    arrival of the two keys at a queue with room for one goroutine. *)
Definition busy_world : World SampleKey :=
  {| wq := {| concurrency := 1;
              knownKeys := <[keyB := true]> (<[keyA := true]> ∅);
              maxConcurrency := 1;
              queue := [keyB] |};
     jobs := [keyA]; called := [keyA]; warned := [] |}.

(** The operations that lead from a new queue to [busy_world]. *)
Definition busy_ops : list (Op SampleKey) :=
  [OpPush keyA; OpDispatch; OpPush keyB].

(** Room for one goroutine; two keys arrive, the input is closed, the first
    job completes. *)
Definition drain_one : list (Event SampleKey) :=
  [Arrive keyA; Arrive keyB; Close; Done keyA].

(** Room for two goroutines; arrivals A, B, C, A, then the input is closed
    and the jobs of A and B complete. *)
Definition drain_two : list (Event SampleKey) :=
  [Arrive keyA; Arrive keyB; Arrive keyC; Arrive keyA;
   Close; Done keyA; Done keyB].

(** Room for one goroutine; two keys arrive and the first job completes
    while the input stays open. *)
Definition complete_one : list (Event SampleKey) :=
  [Arrive keyA; Arrive keyB; Done keyA].

(** Two keys and an empty one arrive at a queue with room for one
    goroutine. *)
Definition mixed_arrivals : list (Event SampleKey) :=
  [Arrive keyA; Arrive sampleEmpty; Arrive keyB].

(** [busy_world] with the warning for the empty key logged. *)
Definition warned_world : World SampleKey := warn sampleEmpty busy_world.

(** The state [drain_one] returns from: [keyB] left pending. *)
Definition left_world : World SampleKey :=
  {| wq := {| concurrency := 0;
              knownKeys := <[keyB := true]> ∅;
              maxConcurrency := 1;
              queue := [keyB] |};
     jobs := []; called := [keyA]; warned := [] |}.

(** Arrivals, one of them repeated and one empty, at a queue with
    [maxConcurrency] 0; then [inputChan] is closed. *)
Definition zero_max_arrivals : list (Event SampleKey) :=
  [Arrive keyA; Arrive keyB; Arrive sampleEmpty; Arrive keyA; Close].

(** Two arrivals, then [inputChan] is closed while the first job runs. *)
Definition close_while_busy : list (Event SampleKey) :=
  [Arrive keyA; Arrive keyB; Close].

(** ** Facts about the model *)

Section discovery_facts.

Context {K : Type} `{Countable K}.
Variable emptyKey : K.
Implicit Types (q : Queue K) (w : World K) (k key : K).

Lemma uint_incr_below z m :
  0 <= z → z < m → m < uint_modulus → uint_incr z = z + 1.
Proof.
  intros. unfold uint_incr, uint_wrap. apply Z.mod_small. lia.
Qed.

Lemma uint_decr_pos z : 0 < z → z < uint_modulus → uint_decr z = z - 1.
Proof.
  intros. unfold uint_decr, uint_wrap. apply Z.mod_small. lia.
Qed.

Lemma uint_decr_zero : uint_decr 0 = uint_max.
Proof. reflexivity. Qed.

(** *** Removing one goroutine from [jobs] *)

Lemma remove_first_perm k (l : list K) :
  k ∈ l → l ≡ₚ k :: remove_first k l.
Proof.
  induction l as [|x l IH]; intros Hin.
  - by apply elem_of_nil in Hin.
  - simpl. destruct (decide (x = k)) as [->|Hne]; [done|].
    apply elem_of_cons in Hin as [->|Hin]; [done|].
    rewrite (IH Hin) at 1. apply Permutation_swap.
Qed.

Lemma remove_first_length k (l : list K) :
  k ∈ l → length l = S (length (remove_first k l)).
Proof. intros Hin. by rewrite (remove_first_perm k l Hin) at 1. Qed.

(** *** The admission guard and [pop] *)

Lemma admits_true q :
  admits q = true ↔ concurrency q < maxConcurrency q ∧ queue q ≠ [].
Proof.
  unfold admits. rewrite andb_true_iff, !Z.ltb_lt.
  destruct (queue q); simpl; split; intros [? ?]; split; try done; lia.
Qed.

Lemma push_found key q :
  is_Some (knownKeys q !! key) → push key q = q.
Proof. intros [b Hb]. unfold push. by rewrite Hb. Qed.

Lemma pop_cons q k rest :
  queue q = k :: rest →
  pop q = Ok (k, {| concurrency := concurrency q;
                    knownKeys := delete k (knownKeys q);
                    maxConcurrency := maxConcurrency q;
                    queue := rest |}).
Proof. intros Hq. unfold pop. by rewrite Hq. Qed.

Lemma dispatch_cons w k rest :
  queue (wq w) = k :: rest →
  dispatch w =
    Ok {| wq := {| concurrency := uint_incr (concurrency (wq w));
                   knownKeys := <[k := true]> (delete k (knownKeys (wq w)));
                   maxConcurrency := maxConcurrency (wq w);
                   queue := rest |};
          jobs := jobs w ++ [k];
          called := called w ++ [k];
          warned := warned w |}.
Proof. intros Hq. unfold dispatch. by rewrite (pop_cons _ _ _ Hq). Qed.

Lemma dispatch_admitted w :
  admits (wq w) = true → ∃ w', dispatch w = Ok w'.
Proof.
  intros [_ Hne]%admits_true.
  destruct (queue (wq w)) as [|k rest] eqn:Hq; [done|].
  eexists. by apply dispatch_cons.
Qed.

(** *** Each operation keeps [known_inv] *)

Lemma known_inv_initial maxC : known_inv (initial (K:=K) maxC).
Proof.
  split; simpl.
  - intros k. rewrite lookup_empty. split.
    + by intros [? ?].
    + intros [Hin|Hin]; by apply elem_of_nil in Hin.
  - apply NoDup_nil_2.
Qed.

Lemma known_inv_push key w : known_inv w → known_inv (with_queue (push key) w).
Proof.
  intros [Hk Hnd]. unfold with_queue, push, known_inv. simpl.
  destruct (knownKeys (wq w) !! key) eqn:Hlk; simpl; [done|].
  assert (key ∉ queue (wq w) ++ jobs w) as Hfresh.
  { intros [Hin|Hin]%elem_of_app;
      (assert (is_Some (knownKeys (wq w) !! key)) as [? ?]
         by (apply Hk; auto)); congruence. }
  split.
  - intros k. rewrite lookup_insert_is_Some, Hk, !elem_of_app.
    rewrite list_elem_of_singleton.
    destruct (decide (key = k)) as [->|Hne]; intuition congruence.
  - rewrite <- (assoc_L (++)).
    rewrite (Permutation_app_comm [key]). rewrite (assoc_L (++)).
    apply NoDup_app. split_and!; [done| |apply NoDup_singleton].
    intros x Hx Hx'%list_elem_of_singleton. by subst.
Qed.

Lemma known_inv_dispatch w w' :
  known_inv w → dispatch w = Ok w' → known_inv w'.
Proof.
  intros [Hk Hnd] Hd.
  destruct (queue (wq w)) as [|k rest] eqn:Hq.
  { unfold dispatch, pop in Hd. by rewrite Hq in Hd. }
  rewrite (dispatch_cons _ _ _ Hq) in Hd. injection Hd as <-.
  unfold known_inv. simpl. split.
  - intros k'. rewrite lookup_insert_is_Some, lookup_delete_is_Some.
    rewrite Hk, elem_of_app, list_elem_of_singleton, elem_of_cons.
    destruct (decide (k = k')) as [->|Hne]; intuition congruence.
  - rewrite (assoc_L (++)). rewrite <- Permutation_cons_append. done.
Qed.

Lemma known_inv_complete key w :
  known_inv w → key ∈ jobs w → known_inv (complete key w).
Proof.
  intros [Hk Hnd] Hin.
  pose proof (remove_first_perm key (jobs w) Hin) as Hperm.
  rewrite Hperm in Hnd.
  rewrite <- Permutation_middle in Hnd. apply NoDup_cons in Hnd as [Hnot Hnd].
  unfold known_inv, complete. simpl. split; [|done].
  intros k. rewrite lookup_delete_is_Some, Hk.
  rewrite (elem_of_Permutation_proper _ _ _ Hperm), elem_of_cons.
  rewrite elem_of_app in Hnot.
  destruct (decide (key = k)) as [->|Hne]; intuition congruence.
Qed.

Lemma known_inv_exec op w w' :
  known_inv w → exec op w = Some w' → known_inv w'.
Proof.
  intros Hinv Hex. destruct op as [key| |key]; simpl in Hex.
  - injection Hex as <-. by apply known_inv_push.
  - destruct (admits (wq w)); [|done].
    destruct (dispatch w) as [w1|msg] eqn:Hd; [|done].
    injection Hex as <-. by eapply known_inv_dispatch.
  - destruct (decide (key ∈ jobs w)) as [Hin|]; [|done].
    injection Hex as <-. by apply known_inv_complete.
Qed.

Lemma known_inv_run ops : ∀ w w',
  known_inv w → run ops w = Some w' → known_inv w'.
Proof.
  induction ops as [|op ops IH]; intros w w' Hinv Hrun; simpl in Hrun.
  - by injection Hrun as <-.
  - destruct (exec op w) as [w1|] eqn:Hex; [|done].
    eapply IH; [|done]. by eapply known_inv_exec.
Qed.

(** *** Each operation keeps [count_inv] *)

Lemma count_inv_initial maxC : 0 <= maxC → count_inv maxC (initial (K:=K) maxC).
Proof. intros. unfold count_inv. simpl. split_and!; [done|done|lia]. Qed.

Lemma count_inv_exec maxC op w w' :
  maxC < uint_modulus →
  count_inv maxC w → exec op w = Some w' → count_inv maxC w'.
Proof.
  intros Hmax (Hm & Hc & Hle) Hex. unfold count_inv.
  destruct op as [key| |key]; simpl in Hex.
  - injection Hex as <-. simpl. unfold push.
    by destruct (knownKeys (wq w) !! key).
  - destruct (admits (wq w)) eqn:Hadm; [|done].
    apply admits_true in Hadm as [Hlt Hne].
    destruct (queue (wq w)) as [|k rest] eqn:Hq; [done|].
    rewrite (dispatch_cons _ _ _ Hq) in Hex. injection Hex as <-. simpl.
    rewrite (uint_incr_below _ (maxConcurrency (wq w))) by lia.
    rewrite length_app. simpl. split_and!; [done|lia|lia].
  - destruct (decide (key ∈ jobs w)) as [Hin|]; [|done].
    injection Hex as <-. simpl.
    pose proof (remove_first_length key (jobs w) Hin) as Hlen.
    rewrite uint_decr_pos by lia. split_and!; [done|lia|lia].
Qed.

Lemma count_inv_run maxC ops : ∀ w w',
  maxC < uint_modulus →
  count_inv maxC w → run ops w = Some w' → count_inv maxC w'.
Proof.
  induction ops as [|op ops IH]; intros w w' Hmax Hinv Hrun; simpl in Hrun.
  - by injection Hrun as <-.
  - destruct (exec op w) as [w1|] eqn:Hex; [|done].
    eapply IH; [done| |done]. by eapply count_inv_exec.
Qed.

(** *** The order of dispatch *)

Lemma exec_order op w w' :
  exec op w = Some w' →
  called w' ++ queue (wq w') = called w ++ queue (wq w) ++ enqueues op w.
Proof.
  intros Hex. destruct op as [key| |key]; simpl in Hex.
  - injection Hex as <-. simpl. unfold push.
    destruct (knownKeys (wq w) !! key); simpl; by rewrite ?app_nil_r.
  - destruct (admits (wq w)); [|done].
    destruct (queue (wq w)) as [|k rest] eqn:Hq.
    { unfold dispatch, pop in Hex. by rewrite Hq in Hex. }
    rewrite (dispatch_cons _ _ _ Hq) in Hex. injection Hex as <-. simpl.
    by rewrite app_nil_r, <- (assoc_L (++)).
  - destruct (decide (key ∈ jobs w)); [|done].
    injection Hex as <-. simpl. by rewrite app_nil_r.
Qed.

Lemma run_order ops : ∀ w w',
  run ops w = Some w' →
  called w' ++ queue (wq w') = called w ++ queue (wq w) ++ accepted ops w.
Proof.
  induction ops as [|op ops IH]; intros w w' Hrun; simpl in *.
  - injection Hrun as <-. by rewrite app_nil_r.
  - destruct (exec op w) as [w1|] eqn:Hex; [|done].
    rewrite (IH _ _ Hrun), (assoc_L (++) (called w1)), (exec_order _ _ _ Hex).
    by rewrite <- !(assoc_L (++)).
Qed.

(** *** The run loop is made of the single operations *)

Lemma cleanup_stops sched w :
  cleanup_continues (wq w) = false → cleanup sched w = Returned w.
Proof. intros Hc. destruct sched; simpl; by rewrite Hc. Qed.

Lemma cleanup_continues_true q :
  cleanup_continues q = true ↔ 0 < concurrency q ∧ queue q ≠ [].
Proof.
  unfold cleanup_continues. rewrite andb_true_iff, !Z.ltb_lt.
  destruct (queue q); simpl; split; intros [? ?]; split; try done; lia.
Qed.

Lemma run_app ops1 : ∀ ops2 w w1,
  run ops1 w = Some w1 → run (ops1 ++ ops2) w = run ops2 w1.
Proof.
  induction ops1 as [|op ops1 IH]; intros ops2 w w1 Hrun; simpl in *.
  - by injection Hrun as <-.
  - destruct (exec op w) as [w0|]; [|done]. by apply IH.
Qed.

Lemma maybeDispatch_run w w1 :
  maybeDispatch w = Ok w1 → ∃ ops, run ops w = Some w1.
Proof.
  unfold maybeDispatch. destruct (admits (wq w)) eqn:Hadm; intros Hd.
  - exists [OpDispatch]. simpl. by rewrite Hadm, Hd.
  - injection Hd as <-. by exists [].
Qed.

Lemma queueAndMaybeDispatch_run key w w1 :
  queueAndMaybeDispatch key w = Ok w1 → ∃ ops, run ops w = Some w1.
Proof.
  unfold queueAndMaybeDispatch. cbv zeta.
  destruct (admits (wq (with_queue (push key) w))) eqn:Hadm; intros Hd.
  - exists [OpPush key; OpDispatch]. simpl in *. by rewrite Hadm, Hd.
  - injection Hd as <-. by exists [OpPush key].
Qed.

Lemma cleanup_run sched : ∀ w w',
  final (cleanup sched w) = Some w' → ∃ ops, run ops w = Some w'.
Proof.
  induction sched as [|ev sched IH]; intros w w'; simpl;
    destruct (cleanup_continues (wq w));
    try (intros [= <-]; by exists []);
    destruct (maybeDispatch w) as [w1|msg] eqn:Hmd; try done;
    apply maybeDispatch_run in Hmd as [ops1 Hops1].
  - intros [= <-]. by exists ops1.
  - destruct ev as [key| |key]; try done.
    destruct (decide (key ∈ jobs w1)) as [Hin|]; [|done].
    intros [ops2 Hops2]%IH.
    exists (ops1 ++ OpDone key :: ops2).
    rewrite (run_app _ _ _ _ Hops1). simpl.
    by destruct (decide (key ∈ jobs w1)).
Qed.

Lemma exec_warn op k w :
  exec op (warn k w) = warn k <$> exec op w.
Proof.
  destruct op as [key| |key]; simpl; [done| |].
  - destruct (admits (wq w)); [|done].
    unfold dispatch. simpl. by destruct (pop (wq w)) as [[? ?]|].
  - by destruct (decide (key ∈ jobs w)).
Qed.

Lemma run_warn ops k : ∀ w, run ops (warn k w) = warn k <$> run ops w.
Proof.
  induction ops as [|op ops IH]; intros w; simpl; [done|].
  rewrite exec_warn. destruct (exec op w) as [w1|]; simpl; [apply IH|done].
Qed.

(** Every state in which a run of [HandleRequests] ends is reached by single
    operations from the state it started in (warnings apart). *)
Lemma HandleRequests_run sched : ∀ w w',
  final (HandleRequests emptyKey sched w) = Some w' →
  ∃ ops w0, run ops w = Some w0
    ∧ wq w0 = wq w' ∧ jobs w0 = jobs w' ∧ called w0 = called w'.
Proof.
  induction sched as [|ev sched IH]; intros w w'; simpl.
  - intros [= <-]. by exists [], w.
  - destruct ev as [key| |key].
    + destruct (decide (key = emptyKey)) as [->|Hne].
      * intros (ops & w0 & Hrun & Hq & Hj & Hc)%IH.
        rewrite run_warn in Hrun.
        destruct (run ops w) as [w2|] eqn:Hrun2; [|done].
        injection Hrun as <-. by exists ops, w2.
      * destruct (queueAndMaybeDispatch key w) as [w1|msg] eqn:Hqd; [|done].
        apply queueAndMaybeDispatch_run in Hqd as [ops1 Hops1].
        intros (ops & w0 & Hrun & Hrest)%IH.
        exists (ops1 ++ ops), w0. by rewrite (run_app _ _ _ _ Hops1).
    + intros [ops Hrun]%cleanup_run. by exists ops, w'.
    + destruct (decide (key ∈ jobs w)) as [Hin|]; [|done].
      intros (ops & w0 & Hrun & Hrest)%IH.
      exists (OpDone key :: ops), w0. simpl.
      by destruct (decide (key ∈ jobs w)).
Qed.

(** The invariants hold wherever a run of [HandleRequests] ends. *)
Lemma HandleRequests_invariants (maxC : Z) sched w :
  uint_ok maxC →
  final (HandleRequests emptyKey sched (initial maxC)) = Some w →
  known_inv w ∧ count_inv maxC w.
Proof.
  intros [Hlo Hhi] (ops & w0 & Hrun & Hq & Hj & _)%HandleRequests_run.
  pose proof (known_inv_run ops _ _ (known_inv_initial maxC) Hrun) as Hk.
  pose proof (count_inv_run maxC ops _ _ Hhi
                (count_inv_initial maxC Hlo) Hrun) as Hc.
  unfold known_inv, count_inv in *. by rewrite <- Hq, <- Hj.
Qed.

(** [cleanup] returns only from a state in which its loop condition fails:
    no active goroutine, or nothing pending. *)
Lemma cleanup_returned sched : ∀ w w',
  cleanup sched w = Returned w' →
  concurrency (wq w') <= 0 ∨ queue (wq w') = [].
Proof.
  induction sched as [|ev sched IH]; intros w w'; simpl;
    destruct (cleanup_continues (wq w)) eqn:Hc;
    try (intros [= <-];
         destruct (decide (0 < concurrency (wq w))) as [Hpos|]; [|left; lia];
         destruct (queue (wq w)) eqn:Hq; [by right|];
         assert (cleanup_continues (wq w) = true) as Hc'
           by (apply cleanup_continues_true; by rewrite Hq);
         congruence);
    destruct (maybeDispatch w) as [w1|msg]; try done.
  destruct ev as [key| |key]; try done.
  destruct (decide (key ∈ jobs w1)); [apply IH|done].
Qed.

(** ** The properties of the queue *)

(** C3: in every state reached from the initial state by pushes, dispatches
    under the admission guard and completions, the number of active
    goroutines lies between 0 and [maxConcurrency], for any positive
    [maxConcurrency] of type [uint]. *)
Theorem concurrency_bounded (maxC : Z) (ops : list (Op K)) w :
  0 < maxC → uint_ok maxC →
  run ops (initial maxC) = Some w →
  0 <= concurrency (wq w) <= maxConcurrency (wq w).
Proof.
  intros Hpos [_ Hmax] Hrun.
  assert (count_inv maxC w) as (Hm & Hc & Hle).
  { eapply count_inv_run; [done| |done]. apply count_inv_initial. lia. }
  rewrite Hm. split; [|done]. rewrite Hc. lia.
Qed.

(** C4: pushing a key that is already in [knownKeys] (waiting or running)
    leaves the whole queue state as it was: [knownKeys], the pending slice
    and the active count. *)
Theorem push_known_unchanged key q :
  is_Some (knownKeys q !! key) →
  push key q = q
  ∧ knownKeys (push key q) = knownKeys q
  ∧ queue (push key q) = queue q
  ∧ length (queue (push key q)) = length (queue q)
  ∧ concurrency (push key q) = concurrency q.
Proof. intros Hknown. by rewrite (push_found _ _ Hknown). Qed.

(** C5: in every reachable state a key is in [knownKeys] exactly when it
    waits in the pending slice or belongs to a running goroutine; so the
    pending slice has no key twice, and a running key is neither pending
    nor enqueued by a further push. *)
Theorem known_keys_exact (maxC : Z) (ops : list (Op K)) w :
  run ops (initial maxC) = Some w →
  (∀ k, is_Some (knownKeys (wq w) !! k) ↔ k ∈ queue (wq w) ∨ k ∈ jobs w)
  ∧ NoDup (queue (wq w))
  ∧ NoDup (jobs w)
  ∧ (∀ k, k ∈ jobs w → (k ∉ queue (wq w)) ∧ push k (wq w) = wq w).
Proof.
  intros Hrun.
  destruct (known_inv_run ops _ _ (known_inv_initial maxC) Hrun) as [Hk Hnd].
  apply NoDup_app in Hnd as (Hq & Hdisj & Hj).
  split_and!; [done|done|done|].
  intros k Hin. split.
  - intros Hin'. by apply (Hdisj k).
  - apply push_found, Hk. by right.
Qed.

(** C6: dispatch is first in, first out.  A dispatch step takes exactly the
    head of the pending slice and starts the processor on it; the keys
    dispatched so far followed by the pending slice are the keys enqueued so
    far, in the order they were enqueued.  So of two enqueued keys the one
    enqueued first is dispatched first. *)
Theorem dispatch_order_fifo (maxC : Z) (ops : list (Op K)) w :
  run ops (initial maxC) = Some w →
  (∀ k rest, queue (wq w) = k :: rest →
     ∃ w', dispatch w = Ok w'
       ∧ queue (wq w') = rest ∧ called w' = called w ++ [k])
  ∧ accepted ops (initial maxC) = called w ++ queue (wq w)
  ∧ (∀ (i j : nat) a b, (i < j)%nat →
       accepted ops (initial maxC) !! i = Some a →
       accepted ops (initial maxC) !! j = Some b →
       called w !! j = Some b → called w !! i = Some a).
Proof.
  intros Hrun.
  assert (accepted ops (initial maxC) = called w ++ queue (wq w)) as Hacc.
  { by rewrite (run_order _ _ _ Hrun). }
  split_and!; [|done|].
  - intros k rest Hq. eexists. by rewrite (dispatch_cons _ _ _ Hq).
  - intros i j a b Hij Ha Hb Hcb. rewrite Hacc in Ha.
    apply lookup_lt_Some in Hcb.
    rewrite lookup_app_l in Ha by lia. done.
Qed.

(** C7: [pop] ends the process exactly when the pending slice is empty; on
    a non-empty slice it returns the head, drops it from the slice and
    deletes it from [knownKeys].  Under the admission guard the fatal branch
    is never taken: neither [maybeDispatch], [queueAndMaybeDispatch] nor a
    run of [HandleRequests] ends in [log.Fatal]. *)
Theorem pop_fatal_iff_empty :
  (∀ q, (∃ msg, pop q = Fatal msg) ↔ queue q = [])
  ∧ (∀ c (known : gmap K bool) m,
       pop {| concurrency := c; knownKeys := known;
              maxConcurrency := m; queue := [] |}
       = Fatal "q.pop() called on empty queue")
  ∧ (∀ c known m k rest,
       pop {| concurrency := c; knownKeys := known;
              maxConcurrency := m; queue := k :: rest |}
       = Ok (k, {| concurrency := c; knownKeys := delete k known;
                   maxConcurrency := m; queue := rest |}))
  ∧ (∀ w, ∃ w', maybeDispatch w = Ok w')
  ∧ (∀ key w, ∃ w', queueAndMaybeDispatch key w = Ok w')
  ∧ (∀ sched w msg, HandleRequests emptyKey sched w ≠ Crashed msg).
Proof.
  assert (∀ w, ∃ w', maybeDispatch w = Ok w') as Hmd.
  { intros w. unfold maybeDispatch.
    destruct (admits (wq w)) eqn:Hadm; [by apply dispatch_admitted|by eexists]. }
  assert (∀ key w, ∃ w', queueAndMaybeDispatch key w = Ok w') as Hqd.
  { intros key w. unfold queueAndMaybeDispatch. cbv zeta.
    destruct (admits (wq (with_queue (push key) w))) eqn:Hadm;
      [by apply dispatch_admitted|by eexists]. }
  assert (∀ sched w msg, cleanup sched w ≠ Crashed msg) as Hcl.
  { induction sched as [|ev sched IH]; intros w msg; simpl;
      destruct (cleanup_continues (wq w)); try done;
      destruct (Hmd w) as [w1 ->]; [done|].
    destruct ev as [key| |key]; try done.
    destruct (decide (key ∈ jobs w1)); [apply IH|done]. }
  split_and!; [| | |done|done|].
  - intros q. unfold pop. destruct (queue q); split; try done.
    + by eexists.
    + by intros [? ?].
  - done.
  - done.
  - induction sched as [|ev sched IH]; intros w msg; simpl; [done|].
    destruct ev as [key| |key].
    + destruct (decide (key = emptyKey)); [apply IH|].
      destruct (Hqd key w) as [w1 ->]. apply IH.
    + apply Hcl.
    + destruct (decide (key ∈ jobs w)); [apply IH|done].
Qed.

(** C10: [acknowledgeJob] decrements the active count with no test for
    zero.  At an active count of 0 the [uint] wraps to 2^64 - 1; deleting a
    key that is not in [knownKeys] changes nothing, and the pending slice
    and [maxConcurrency] stay as they are. *)
Theorem acknowledgeJob_wraps_at_zero key q :
  concurrency q = 0 →
  concurrency (acknowledgeJob key q) = 2 ^ 64 - 1
  ∧ (knownKeys q !! key = None →
       knownKeys (acknowledgeJob key q) = knownKeys q)
  ∧ queue (acknowledgeJob key q) = queue q
  ∧ maxConcurrency (acknowledgeJob key q) = maxConcurrency q.
Proof.
  intros Hc. unfold acknowledgeJob. simpl. rewrite Hc, uint_decr_zero.
  split_and!; [done| |done|done].
  apply delete_id.
Qed.

(** *** The reserved key *)







(** *** A queue with [maxConcurrency] 0 *)

Lemma admits_zero_max q :
  maxConcurrency q = 0 → 0 <= concurrency q → admits q = false.
Proof.
  intros Hm Hc. unfold admits. rewrite Hm.
  apply andb_false_iff. left. apply Z.ltb_ge. done.
Qed.

Lemma idle_exec op w w' :
  maxConcurrency (wq w) = 0 → idle w → exec op w = Some w' →
  maxConcurrency (wq w') = 0 ∧ idle w'.
Proof.
  intros Hm (Hc & Hj & Hcl) Hex. destruct op as [key| |key]; simpl in Hex.
  - injection Hex as <-. unfold idle, push. simpl.
    by destruct (knownKeys (wq w) !! key).
  - rewrite admits_zero_max in Hex by lia. done.
  - rewrite Hj in Hex. destruct (decide (key ∈ [])) as [Hin|]; [|done].
    by apply elem_of_nil in Hin.
Qed.

Lemma idle_run ops : ∀ w w',
  maxConcurrency (wq w) = 0 → idle w → run ops w = Some w' →
  maxConcurrency (wq w') = 0 ∧ idle w'.
Proof.
  induction ops as [|op ops IH]; intros w w' Hm Hidle Hrun; simpl in Hrun.
  - by injection Hrun as <-.
  - destruct (exec op w) as [w1|] eqn:Hex; [|done].
    destruct (idle_exec _ _ _ Hm Hidle Hex) as [Hm1 Hidle1].
    by eapply IH.
Qed.

Lemma push_queue_elem key k w :
  known_inv w → jobs w = [] →
  k ∈ queue (push key (wq w)) ↔ k ∈ queue (wq w) ∨ k = key.
Proof.
  intros [Hk _] Hj. unfold push.
  destruct (knownKeys (wq w) !! key) eqn:Hlk; simpl.
  - assert (key ∈ queue (wq w)) as Hin.
    { destruct (proj1 (Hk key)) as [?|Hin]; [by eexists|done|].
      rewrite Hj in Hin. by apply elem_of_nil in Hin. }
    split; [by left|]. by intros [?| ->].
  - by rewrite elem_of_app, list_elem_of_singleton.
Qed.

Lemma idle_HandleRequests sched : ∀ w w',
  maxConcurrency (wq w) = 0 → idle w → known_inv w →
  final (HandleRequests emptyKey sched w) = Some w' →
  idle w' ∧ known_inv w'
  ∧ ∀ k, k ∈ queue (wq w') ↔
         k ∈ queue (wq w) ∨ (k ≠ emptyKey ∧ k ∈ arrivals sched).
Proof.
  induction sched as [|ev sched IH]; intros w w' Hm Hidle Hinv; simpl.
  - intros [= <-]. split_and!; [done|done|]. intros k. split; [by left|].
    intros [?|[_ Hin]]; [done|]. by apply elem_of_nil in Hin.
  - destruct ev as [key| |key].
    + destruct (decide (key = emptyKey)) as [->|Hne].
      * intros (Hidle' & Hinv' & Hq)%IH; [|done|done|done].
        split_and!; [done|done|]. intros k. rewrite Hq. simpl.
        rewrite elem_of_cons. intuition congruence.
      * unfold queueAndMaybeDispatch. cbv zeta.
        destruct Hidle as (Hc & Hj & Hcl).
        rewrite admits_zero_max; cycle 1.
        { simpl. unfold push. by destruct (knownKeys (wq w) !! key). }
        { simpl. unfold push. destruct (knownKeys (wq w) !! key); simpl; lia. }
        intros (Hidle' & Hinv' & Hq)%IH; cycle 1.
        { simpl. unfold push. by destruct (knownKeys (wq w) !! key). }
        { unfold idle, push. simpl. by destruct (knownKeys (wq w) !! key). }
        { by apply known_inv_push. }
        split_and!; [done|done|]. intros k. rewrite Hq. simpl.
        rewrite push_queue_elem, elem_of_cons by done.
        intuition congruence.
    + destruct Hidle as (Hc & Hj & Hcl).
      rewrite cleanup_stops by (unfold cleanup_continues; by rewrite Hc).
      intros [= <-]. split_and!; [done|done|]. intros k. split; [by left|].
      intros [?|[_ Hin]]; [done|]. by apply elem_of_nil in Hin.
    + destruct Hidle as (Hc & Hj & Hcl). rewrite Hj.
      destruct (decide (key ∈ [])) as [Hin|]; [|done].
      by apply elem_of_nil in Hin.
Qed.

(** With [maxConcurrency] 0 and nothing running, a schedule without
    completions is always run through: the loop returns if [inputChan] is
    closed on it, and waits for its next event otherwise. *)
Lemma idle_HandleRequests_state sched : ∀ w,
  maxConcurrency (wq w) = 0 → idle w → (∀ key, Done key ∉ sched) →
  ∃ w', final (HandleRequests emptyKey sched w) = Some w'
      ∧ (Close ∈ sched → HandleRequests emptyKey sched w = Returned w')
      ∧ (Close ∉ sched → HandleRequests emptyKey sched w = Waiting w').
Proof.
  induction sched as [|ev sched IH]; intros w Hm Hidle Hnd; simpl.
  - exists w. split_and!; [done| |done].
    intros Hin. by apply elem_of_nil in Hin.
  - assert (∀ key, Done key ∉ sched) as Hnd'.
    { intros key Hin. apply (Hnd key). by apply elem_of_cons; right. }
    destruct ev as [key| |key].
    + assert (∀ w1, maxConcurrency (wq w1) = 0 → idle w1 →
                ∃ w', final (HandleRequests emptyKey sched w1) = Some w'
                    ∧ (Close ∈ Arrive key :: sched →
                         HandleRequests emptyKey sched w1 = Returned w')
                    ∧ (Close ∉ Arrive key :: sched →
                         HandleRequests emptyKey sched w1 = Waiting w'))
        as Hstep.
      { intros w1 Hm1 Hidle1.
        destruct (IH w1 Hm1 Hidle1 Hnd') as (w' & Hfin & Hret & Hwait).
        exists w'. split_and!; [done| |].
        - intros [?|Hin]%elem_of_cons; [done|by apply Hret].
        - intros Hnot. apply Hwait. intros Hin. apply Hnot.
          by apply elem_of_cons; right. }
      destruct (decide (key = emptyKey)); [by apply Hstep|].
      destruct Hidle as (Hc & Hj & Hcl).
      unfold queueAndMaybeDispatch. cbv zeta.
      assert (maxConcurrency (push key (wq w)) = 0
              ∧ concurrency (push key (wq w)) = 0) as [Hpm Hpc].
      { unfold push. by destruct (knownKeys (wq w) !! key). }
      rewrite admits_zero_max by (simpl; lia).
      apply Hstep; [done|]. by split_and!.
    + assert (cleanup sched w = Returned w) as ->.
      { apply cleanup_stops. unfold cleanup_continues.
        destruct Hidle as (-> & _). done. }
      exists w. split_and!; [done|done|].
      intros Hnot. exfalso. apply Hnot, list_elem_of_here.
    + exfalso. apply (Hnd key), list_elem_of_here.
Qed.

(** C9: [NewQueue] takes a [maxConcurrency] of 0 as it takes any other
    value.  With [maxConcurrency] 0 the admission guard is false in every
    state, so no run dispatches anything or starts the processor, while
    every key that arrives (the reserved one apart) is kept, once, in the
    pending slice.  Such runs exist: no job being started, no completion
    can occur, and every schedule without one is run through to a state,
    returned from if [inputChan] is closed on it and waited in otherwise,
    in which the pending slice holds the arrivals. *)
Theorem zero_max_never_dispatches :
  NewQueue (K:=K) 0
    = {| concurrency := 0; knownKeys := ∅; maxConcurrency := 0; queue := [] |}
  ∧ (∀ q, maxConcurrency q = 0 → uint_ok (concurrency q) → admits q = false)
  ∧ (∀ (ops : list (Op K)) w,
       run ops (initial 0) = Some w →
       exec OpDispatch w = None ∧ called w = [] ∧ jobs w = [])
  ∧ (∀ sched w,
       final (HandleRequests emptyKey sched (initial 0)) = Some w →
       called w = [] ∧ jobs w = [] ∧ concurrency (wq w) = 0
       ∧ NoDup (queue (wq w))
       ∧ ∀ k, k ∈ queue (wq w) ↔ k ≠ emptyKey ∧ k ∈ arrivals sched)
  ∧ (∀ sched,
       (∀ key, Done key ∉ sched) →
       ∃ w,
         (Close ∈ sched →
            HandleRequests emptyKey sched (initial 0) = Returned w)
         ∧ (Close ∉ sched →
              HandleRequests emptyKey sched (initial 0) = Waiting w)
         ∧ called w = [] ∧ jobs w = [] ∧ concurrency (wq w) = 0
         ∧ NoDup (queue (wq w))
         ∧ ∀ k, k ∈ queue (wq w) ↔ k ≠ emptyKey ∧ k ∈ arrivals sched).
Proof.
  assert (∀ sched w,
            final (HandleRequests emptyKey sched (initial 0)) = Some w →
            called w = [] ∧ jobs w = [] ∧ concurrency (wq w) = 0
            ∧ NoDup (queue (wq w))
            ∧ ∀ k, k ∈ queue (wq w) ↔ k ≠ emptyKey ∧ k ∈ arrivals sched)
    as Hstate.
  { intros sched w Hfin.
    destruct (idle_HandleRequests sched (initial 0) w)
      as ((Hc & Hj & Hcl) & [_ Hnd] & Hq); [done|done| |done|].
    { apply known_inv_initial. }
    apply NoDup_app in Hnd as (Hnd & _ & _).
    split_and!; [done|done|done|done|].
    intros k. rewrite Hq. simpl. split; [|by right].
    intros [Hin|?]; [|done]. by apply elem_of_nil in Hin. }
  split_and!; [| | |exact Hstate|].
  - done.
  - intros q Hm [Hc _]. by apply admits_zero_max.
  - intros ops w Hrun.
    destruct (idle_run ops (initial 0) w) as (Hm & Hc & Hj & Hcl);
      [done|done|done|].
    split_and!; [|done|done]. simpl. rewrite admits_zero_max; [done|done|lia].
  - intros sched Hnd.
    destruct (idle_HandleRequests_state sched (initial 0))
      as (w & Hfin & Hret & Hwait); [done|done|done|].
    exists w. split; [done|]. split; [done|].
    by apply (Hstate sched).
Qed.

End discovery_facts.


(** ** Further properties of the queue operations *)

Section discovery_more.

Context {K : Type} `{Countable K}.
Variable emptyKey : K.
Implicit Types (q : Queue K) (w : World K) (k key : K).

Lemma queue_eta q :
  {| concurrency := concurrency q; knownKeys := knownKeys q;
     maxConcurrency := maxConcurrency q; queue := queue q |} = q.
Proof. by destruct q. Qed.

Lemma world_eta w :
  {| wq := wq w; jobs := jobs w; called := called w; warned := warned w |} = w.
Proof. by destruct w. Qed.

(** X1: [push] is idempotent: whatever the queue, the pushed key is in
    [knownKeys] afterwards and pushing it once more changes nothing. *)
Theorem push_idempotent key q :
  is_Some (knownKeys (push key q) !! key)
  ∧ push key (push key q) = push key q.
Proof.
  assert (is_Some (knownKeys (push key q) !! key)) as Hknown.
  { unfold push. destruct (knownKeys q !! key) as [b|] eqn:Hlk; simpl.
    - by rewrite Hlk.
    - by rewrite lookup_insert_eq. }
  split; [done|]. by apply push_found.
Qed.

(** X2: on a queue with nothing pending, pushing a key that is not in
    [knownKeys] and popping at once gives the key back and leaves the queue
    exactly as it was before the push. *)
Theorem push_pop_roundtrip key q :
  queue q = [] → knownKeys q !! key = None →
  pop (push key q) = Ok (key, q).
Proof.
  intros Hq Hlk. unfold push, pop. rewrite Hlk, Hq. simpl.
  rewrite delete_insert_id by done.
  rewrite <- Hq. by rewrite queue_eta.
Qed.

(** X3: [push] does not disturb the head of a non-empty pending slice:
    popping after pushing a key other than the head returns the same head,
    and the rest is the popped queue with the key pushed. *)
Theorem pop_push_commute key q head rest :
  queue q = head :: rest → key ≠ head →
  pop (push key q)
  = Ok (head, push key {| concurrency := concurrency q;
                          knownKeys := delete head (knownKeys q);
                          maxConcurrency := maxConcurrency q;
                          queue := rest |}).
Proof.
  intros Hq Hne.
  unfold push at 2. simpl. rewrite lookup_delete_ne by done.
  unfold push. destruct (knownKeys q !! key) as [b|] eqn:Hlk.
  - by apply pop_cons.
  - unfold pop. simpl. rewrite Hq. simpl.
    by rewrite delete_insert_ne by done.
Qed.

(** X4: a key that is not yet known and arrives while nothing is pending
    and a slot is free is handed to the processor at once: it is started
    and counted, recorded in [knownKeys], and never rests in the pending
    slice. *)
Theorem arrival_dispatched_at_once key w :
  knownKeys (wq w) !! key = None → queue (wq w) = [] →
  0 <= concurrency (wq w) < maxConcurrency (wq w) →
  maxConcurrency (wq w) < uint_modulus →
  queueAndMaybeDispatch key w
  = Ok {| wq := {| concurrency := concurrency (wq w) + 1;
                   knownKeys := <[key := true]> (knownKeys (wq w));
                   maxConcurrency := maxConcurrency (wq w);
                   queue := [] |};
          jobs := jobs w ++ [key];
          called := called w ++ [key];
          warned := warned w |}.
Proof.
  intros Hlk Hq [Hlo Hhi] Hmax. unfold queueAndMaybeDispatch. cbv zeta.
  assert (queue (wq (with_queue (push key) w)) = key :: []) as Hq1.
  { simpl. unfold push. by rewrite Hlk, Hq. }
  assert (admits (wq (with_queue (push key) w)) = true) as ->.
  { apply admits_true. rewrite Hq1. split; [|done].
    simpl. unfold push. by rewrite Hlk. }
  rewrite (dispatch_cons _ _ _ Hq1). simpl. unfold push. rewrite Hlk. simpl.
  rewrite insert_delete_eq, insert_insert_eq.
  by rewrite (uint_incr_below _ (maxConcurrency (wq w))) by lia.
Qed.

(** *** Values stored in [knownKeys] *)

Lemma values_true_exec op w w' :
  values_true (wq w) → exec op w = Some w' → values_true (wq w').
Proof.
  intros Hv Hex. destruct op as [key| |key]; simpl in Hex.
  - injection Hex as <-. simpl. unfold push.
    destruct (knownKeys (wq w) !! key) eqn:Hlk; [done|].
    intros k b. simpl. rewrite lookup_insert.
    case_decide; [by intros [= <-]|apply Hv].
  - destruct (admits (wq w)); [|done].
    destruct (queue (wq w)) as [|k0 rest] eqn:Hq.
    { unfold dispatch, pop in Hex. by rewrite Hq in Hex. }
    rewrite (dispatch_cons _ _ _ Hq) in Hex. injection Hex as <-.
    intros k b. simpl. rewrite lookup_insert.
    case_decide; [by intros [= <-]|].
    rewrite lookup_delete_ne by done. apply Hv.
  - destruct (decide (key ∈ jobs w)); [|done]. injection Hex as <-.
    intros k b. simpl. rewrite lookup_delete.
    case_decide; [done|apply Hv].
Qed.

Lemma values_true_run ops : ∀ w w',
  values_true (wq w) → run ops w = Some w' → values_true (wq w').
Proof.
  induction ops as [|op ops IH]; intros w w' Hv Hrun; simpl in Hrun.
  - by injection Hrun as <-.
  - destruct (exec op w) as [w1|] eqn:Hex; [|done].
    eapply IH; [|done]. by eapply values_true_exec.
Qed.

Lemma values_true_initial (maxC : Z) : values_true (wq (initial (K:=K) maxC)).
Proof. intros k b. simpl. by rewrite lookup_empty. Qed.

(** X5: in a reachable state [dispatch] moves the head of the pending
    slice to the running goroutines and leaves [knownKeys] exactly as it
    was: the delete in [pop] and the insert that follows cancel. *)
Theorem dispatch_keeps_knownKeys (maxC : Z) (ops : list (Op K)) w k rest :
  run ops (initial maxC) = Some w →
  queue (wq w) = k :: rest →
  ∃ w', dispatch w = Ok w'
    ∧ knownKeys (wq w') = knownKeys (wq w)
    ∧ queue (wq w') = rest
    ∧ jobs w' = jobs w ++ [k].
Proof.
  intros Hrun Hq.
  destruct (known_inv_run ops _ _ (known_inv_initial maxC) Hrun) as [Hk _].
  pose proof (values_true_run ops _ _ (values_true_initial maxC) Hrun) as Hv.
  assert (knownKeys (wq w) !! k = Some true) as Hlk.
  { destruct (proj2 (Hk k)) as [b Hb].
    - left. rewrite Hq. apply list_elem_of_here.
    - by rewrite Hb, (Hv k b Hb). }
  eexists. split; [by apply dispatch_cons|]. simpl.
  split_and!; [|done|done].
  rewrite insert_delete_eq. by apply insert_id.
Qed.

(** X6: in every reachable state [knownKeys] has exactly one entry per
    pending key and per running goroutine: its size is the length of the
    pending slice plus the active count. *)
Theorem knownKeys_size (maxC : Z) (ops : list (Op K)) w :
  uint_ok maxC →
  run ops (initial maxC) = Some w →
  Z.of_nat (size (knownKeys (wq w)))
  = Z.of_nat (length (queue (wq w))) + concurrency (wq w).
Proof.
  intros [Hlo Hhi] Hrun.
  destruct (known_inv_run ops _ _ (known_inv_initial maxC) Hrun) as [Hk Hnd].
  destruct (count_inv_run maxC ops _ _ Hhi (count_inv_initial maxC Hlo) Hrun)
    as (_ & Hc & _).
  rewrite Hc, <- Nat2Z.inj_add, <- length_app. f_equal.
  rewrite <- size_dom, <- (size_list_to_set (C:=gset K)) by done.
  f_equal. apply set_eq. intros k.
  rewrite elem_of_dom, elem_of_list_to_set, elem_of_app. apply Hk.
Qed.

(** X7: a key whose job is acknowledged can be requested again.  In a
    reachable state with a goroutine running for the key, the completion
    removes the key from [knownKeys]; a push of the key is then accepted and
    puts it, once, at the end of the pending slice. *)
Theorem readmission_after_completion (maxC : Z) (ops : list (Op K)) w key :
  run ops (initial maxC) = Some w →
  key ∈ jobs w →
  knownKeys (wq (complete key w)) !! key = None
  ∧ (key ∉ jobs (complete key w))
  ∧ queue (push key (wq (complete key w))) = queue (wq w) ++ [key]
  ∧ NoDup (queue (push key (wq (complete key w)))).
Proof.
  intros Hrun Hin.
  pose proof (known_inv_run ops _ _ (known_inv_initial maxC) Hrun) as Hinv.
  destruct (known_inv_complete key w Hinv Hin) as [Hk' Hnd'].
  assert (knownKeys (wq (complete key w)) !! key = None) as Hlk.
  { simpl. apply lookup_delete_eq. }
  assert (key ∉ queue (wq (complete key w)) ++ jobs (complete key w)) as Hnot.
  { intros Hel. apply elem_of_app in Hel.
    apply Hk' in Hel as [b Hb]. congruence. }
  rewrite elem_of_app in Hnot.
  assert (queue (push key (wq (complete key w))) = queue (wq w) ++ [key])
    as Hpush.
  { unfold push. by rewrite Hlk. }
  split_and!; [done|tauto|done|].
  rewrite Hpush. apply NoDup_app in Hnd' as (Hq & _ & _). simpl in *.
  apply NoDup_app. split_and!; [done| |apply NoDup_singleton].
  intros x Hx ->%list_elem_of_singleton. tauto.
Qed.

Lemma uint_decr_incr z : uint_ok z → uint_decr (uint_incr z) = z.
Proof.
  intros [Hlo Hhi]. unfold uint_decr, uint_incr, uint_wrap.
  rewrite Zminus_mod_idemp_l.
  replace (z + 1 - 1) with z by lia. by apply Z.mod_small.
Qed.

(** X8: dispatching the head of the pending slice and acknowledging its
    job brings the active count back to what it was, also at the top of the
    [uint] range; the key is then out of [knownKeys] and the pending slice
    has lost its head. *)
Theorem dispatch_then_acknowledge w k rest :
  uint_ok (concurrency (wq w)) →
  queue (wq w) = k :: rest →
  ∃ w1, dispatch w = Ok w1
    ∧ concurrency (acknowledgeJob k (wq w1)) = concurrency (wq w)
    ∧ knownKeys (acknowledgeJob k (wq w1)) = delete k (knownKeys (wq w))
    ∧ queue (acknowledgeJob k (wq w1)) = rest
    ∧ maxConcurrency (acknowledgeJob k (wq w1)) = maxConcurrency (wq w).
Proof.
  intros Hc Hq. eexists. split; [by apply dispatch_cons|]. simpl.
  split_and!; [by apply uint_decr_incr| |done|done].
  by rewrite delete_insert_eq, delete_delete_eq.
Qed.

(** *** What the run loop does with the arrivals *)

Lemma dispatch_order w w' :
  dispatch w = Ok w' →
  called w' ++ queue (wq w') = called w ++ queue (wq w)
  ∧ warned w' = warned w.
Proof.
  intros Hd. destruct (queue (wq w)) as [|k rest] eqn:Hq.
  { unfold dispatch, pop in Hd. by rewrite Hq in Hd. }
  rewrite (dispatch_cons _ _ _ Hq) in Hd. injection Hd as <-. simpl.
  by rewrite <- (assoc_L (++)).
Qed.

Lemma maybeDispatch_order w w' :
  maybeDispatch w = Ok w' →
  called w' ++ queue (wq w') = called w ++ queue (wq w)
  ∧ warned w' = warned w.
Proof.
  unfold maybeDispatch. destruct (admits (wq w)).
  - apply dispatch_order.
  - by intros [= <-].
Qed.

Lemma queueAndMaybeDispatch_order key w w' :
  queueAndMaybeDispatch key w = Ok w' →
  called w' ++ queue (wq w')
  = (called w ++ queue (wq w)) ++ enqueues (OpPush key) w
  ∧ warned w' = warned w.
Proof.
  unfold queueAndMaybeDispatch. cbv zeta. intros Hd.
  assert (called (with_queue (push key) w)
          ++ queue (wq (with_queue (push key) w))
          = (called w ++ queue (wq w)) ++ enqueues (OpPush key) w) as Hp.
  { simpl. unfold push. destruct (knownKeys (wq w) !! key); simpl.
    - by rewrite app_nil_r.
    - by rewrite (assoc_L (++)). }
  destruct (admits (wq (with_queue (push key) w))).
  - apply dispatch_order in Hd as [-> ->]. by rewrite Hp.
  - injection Hd as <-. by rewrite Hp.
Qed.

Lemma cleanup_order sched : ∀ w w',
  final (cleanup sched w) = Some w' →
  called w' ++ queue (wq w') = called w ++ queue (wq w)
  ∧ warned w' = warned w.
Proof.
  induction sched as [|ev sched IH]; intros w w'; simpl;
    destruct (cleanup_continues (wq w));
    try (by intros [= <-]);
    destruct (maybeDispatch w) as [w1|msg] eqn:Hmd; try done;
    apply maybeDispatch_order in Hmd as [Hcq Hw].
  - intros [= <-]. by rewrite Hcq, Hw.
  - destruct ev as [key| |key]; try done.
    destruct (decide (key ∈ jobs w1)); [|done].
    intros [Hcq' Hw']%IH. simpl in *. by rewrite Hcq', Hw', Hcq, Hw.
Qed.

Lemma HandleRequests_order sched : ∀ w w',
  final (HandleRequests emptyKey sched w) = Some w' →
  ∃ l, called w' ++ queue (wq w') = (called w ++ queue (wq w)) ++ l
    ∧ l `sublist_of` filter (λ k, k ≠ emptyKey) (arrivals sched)
    ∧ warned w'
      = warned w ++ filter (λ k, k = emptyKey) (arrivals sched).
Proof.
  induction sched as [|ev sched IH]; intros w w'; simpl.
  - intros [= <-]. exists []. by rewrite !app_nil_r.
  - destruct ev as [key| |key].
    + rewrite !filter_cons.
      destruct (decide (key = emptyKey)) as [->|Hne].
      * intros (l & Hcq & Hsub & Hw)%IH. exists l. simpl in *.
        destruct (decide (emptyKey ≠ emptyKey)); [done|].
        split_and!; [done|done|]. by rewrite Hw, <- (assoc_L (++)).
      * destruct (queueAndMaybeDispatch key w) as [w1|msg] eqn:Hqd; [|done].
        apply queueAndMaybeDispatch_order in Hqd as [Hcq1 Hw1].
        intros (l & Hcq & Hsub & Hw)%IH.
        exists (enqueues (OpPush key) w ++ l).
        destruct (decide (key ≠ emptyKey)); [|done].
        split_and!.
        -- by rewrite Hcq, Hcq1, <- !(assoc_L (++)).
        -- simpl. destruct (knownKeys (wq w) !! key); simpl.
           ++ by apply sublist_cons.
           ++ by apply sublist_skip.
        -- by rewrite Hw, Hw1.
    + intros [Hcq Hw]%cleanup_order. exists [].
      rewrite !app_nil_r. by rewrite filter_nil.
    + destruct (decide (key ∈ jobs w)); [|done].
      intros (l & Hcq & Hsub & Hw)%IH. by exists l.
Qed.

(** X9: the processor is started at most once per arrival and in arrival
    order.  Wherever a run from a new queue stands, the keys handed to the
    processor so far, followed by the pending ones, form a subsequence of
    the non-empty keys that arrived on [inputChan]. *)
Theorem called_subsequence_of_arrivals (maxC : Z) sched w :
  final (HandleRequests emptyKey sched (initial maxC)) = Some w →
  called w ++ queue (wq w)
    `sublist_of` filter (λ k, k ≠ emptyKey) (arrivals sched).
Proof.
  intros (l & Hcq & Hsub & _)%HandleRequests_order.
  simpl in Hcq. by rewrite Hcq.
Qed.

(** X10: a warning is logged for each arrival of the empty key and for
    nothing else: wherever a run from a new queue stands, the warnings
    logged are the empty keys among the arrivals. *)
Theorem warnings_are_empty_arrivals (maxC : Z) sched w :
  final (HandleRequests emptyKey sched (initial maxC)) = Some w →
  warned w = filter (λ k, k = emptyKey) (arrivals sched).
Proof.
  intros (l & _ & _ & Hw)%HandleRequests_order. by rewrite Hw.
Qed.

(** X11: [HandleRequests] returns only after [inputChan] has been closed,
    and then from a state where the loop of [cleanup] has stopped: no
    goroutine is counted active, or nothing is pending. *)
Theorem returns_only_after_close sched w w' :
  HandleRequests emptyKey sched w = Returned w' →
  Close ∈ sched
  ∧ (concurrency (wq w') <= 0 ∨ queue (wq w') = []).
Proof.
  revert w. induction sched as [|ev sched IH]; intros w; simpl; [done|].
  destruct ev as [key| |key].
  - destruct (decide (key = emptyKey)).
    + intros [Hin Hst]%IH. split; [by apply elem_of_cons; right|done].
    + destruct (queueAndMaybeDispatch key w) as [w1|msg]; [|done].
      intros [Hin Hst]%IH. split; [by apply elem_of_cons; right|done].
  - intros Hst%cleanup_returned. split; [apply list_elem_of_here|done].
  - destruct (decide (key ∈ jobs w)); [|done].
    intros [Hin Hst]%IH. split; [by apply elem_of_cons; right|done].
Qed.

(** *** Waiting and saturation *)

Lemma count_inv_warn (maxC : Z) k w :
  count_inv maxC w → count_inv maxC (warn k w).
Proof. done. Qed.

Lemma count_inv_maybeDispatch (maxC : Z) w w1 :
  maxC < uint_modulus → count_inv maxC w → maybeDispatch w = Ok w1 →
  count_inv maxC w1.
Proof.
  intros Hmax Hinv [ops Hrun]%maybeDispatch_run.
  by eapply count_inv_run.
Qed.

Lemma count_inv_queueAndMaybeDispatch (maxC : Z) key w w1 :
  maxC < uint_modulus → count_inv maxC w →
  queueAndMaybeDispatch key w = Ok w1 → count_inv maxC w1.
Proof.
  intros Hmax Hinv [ops Hrun]%queueAndMaybeDispatch_run.
  by eapply count_inv_run.
Qed.

Lemma count_inv_complete (maxC : Z) key w :
  maxC < uint_modulus → count_inv maxC w → key ∈ jobs w →
  count_inv maxC (complete key w).
Proof.
  intros Hmax Hinv Hin. apply (count_inv_exec maxC (OpDone key) w); [done..|].
  simpl. by destruct (decide (key ∈ jobs w)).
Qed.

Lemma count_inv_running (maxC : Z) w :
  count_inv maxC w → 0 < concurrency (wq w) → jobs w ≠ [].
Proof.
  intros (_ & Hc & _) Hpos Hj. rewrite Hj in Hc. simpl in Hc. lia.
Qed.

Lemma cleanup_waiting (maxC : Z) sched : ∀ w w',
  maxC < uint_modulus → count_inv maxC w →
  cleanup sched w = Waiting w' →
  jobs w' ≠ [] ∧ 0 < concurrency (wq w').
Proof.
  induction sched as [|ev sched IH]; intros w w' Hmax Hinv; simpl;
    destruct (cleanup_continues (wq w)) eqn:Hcont; try done;
    apply cleanup_continues_true in Hcont as [Hpos Hne];
    destruct (maybeDispatch w) as [w1|msg] eqn:Hmd; try done;
    pose proof (count_inv_maybeDispatch maxC _ _ Hmax Hinv Hmd) as Hinv1.
  - intros [= <-].
    assert (0 < concurrency (wq w1)) as Hpos1.
    { revert Hmd. unfold maybeDispatch.
      destruct (admits (wq w)) eqn:Hadm; [|by intros [= <-]].
      destruct Hinv as (Hm & Hc & Hle).
      apply admits_true in Hadm as [Hlt _].
      destruct (queue (wq w)) as [|k rest] eqn:Hq; [done|].
      rewrite (dispatch_cons _ _ _ Hq). intros [= <-]. simpl.
      rewrite (uint_incr_below _ (maxConcurrency (wq w))) by lia. lia. }
    split; [by eapply count_inv_running|done].
  - destruct ev as [key| |key]; try done.
    destruct (decide (key ∈ jobs w1)) as [Hin|]; [|done].
    apply IH; [done|]. by apply count_inv_complete.
Qed.

(** X12: the drain phase never waits in vain.  Whenever a run from a new
    queue is blocked on [done] after [inputChan] was closed, a goroutine
    is still running and will deliver its key. *)
Theorem cleanup_waits_for_running_job (maxC : Z) sched w :
  uint_ok maxC → Close ∈ sched →
  HandleRequests emptyKey sched (initial maxC) = Waiting w →
  jobs w ≠ [] ∧ 0 < concurrency (wq w).
Proof.
  intros [Hlo Hhi] Hclose.
  pose proof (count_inv_initial (K:=K) maxC Hlo) as Hinv.
  revert Hclose Hinv. generalize (initial (K:=K) maxC) as w0.
  induction sched as [|ev sched IH]; intros w0 Hclose Hinv; simpl.
  { by apply elem_of_nil in Hclose. }
  destruct ev as [key| |key].
  - apply elem_of_cons in Hclose as [?|Hclose]; [done|].
    destruct (decide (key = emptyKey)); [by apply IH|].
    destruct (queueAndMaybeDispatch key w0) as [w1|msg] eqn:Hqd; [|done].
    apply IH; [done|]. by eapply count_inv_queueAndMaybeDispatch.
  - by apply (cleanup_waiting maxC).
  - apply elem_of_cons in Hclose as [?|Hclose]; [done|].
    destruct (decide (key ∈ jobs w0)); [|done].
    apply IH; [done|]. by apply count_inv_complete.
Qed.

Lemma saturated_queueAndMaybeDispatch (maxC : Z) key w :
  maxC < uint_modulus → count_inv maxC w → saturated w →
  ∃ w1, queueAndMaybeDispatch key w = Ok w1
    ∧ count_inv maxC w1 ∧ saturated w1.
Proof.
  intros Hmax Hinv Hsat.
  assert (∃ w1, queueAndMaybeDispatch key w = Ok w1) as [w1 Hqd].
  { unfold queueAndMaybeDispatch. cbv zeta.
    destruct (admits (wq (with_queue (push key) w))) eqn:Hadm;
      [by apply dispatch_admitted|by eexists]. }
  exists w1. split; [done|].
  split; [by eapply count_inv_queueAndMaybeDispatch|].
  destruct Hinv as (Hm & Hc & Hle).
  revert Hqd. unfold queueAndMaybeDispatch. cbv zeta.
  assert (concurrency (push key (wq w)) = concurrency (wq w)
          ∧ maxConcurrency (push key (wq w)) = maxConcurrency (wq w))
    as [Hpc Hpm].
  { unfold push. by destruct (knownKeys (wq w) !! key). }
  destruct (admits (wq (with_queue (push key) w))) eqn:Hadm.
  - apply admits_true in Hadm as [Hlt Hne]. simpl in Hlt, Hne.
    rewrite Hpc, Hpm in Hlt.
    assert (queue (wq w) = []) as Hq.
    { destruct (queue (wq w)) eqn:Hq; [done|].
      assert (concurrency (wq w) = maxConcurrency (wq w)); [|lia].
      apply Hsat. by rewrite Hq. }
    assert (queue (push key (wq w)) = [key]) as Hq1.
    { revert Hne. unfold push.
      destruct (knownKeys (wq w) !! key); simpl; by rewrite Hq. }
    rewrite (dispatch_cons _ key []) by done.
    intros [= <-]. by intros Hne'.
  - intros [= <-]. intros Hne'. simpl in *. rewrite Hpc, Hpm.
    destruct (decide (concurrency (wq w) < maxConcurrency (wq w)))
      as [Hlt|]; [|lia].
    assert (admits (push key (wq w)) = true) as Hadm'; [|congruence].
    apply admits_true. by rewrite Hpc, Hpm.
Qed.

(** X13: as long as [inputChan] stays open and no job has completed, the
    slots are kept busy: the run loop, waiting for its next event, has a key
    pending only when the active count has reached [maxConcurrency]. *)
Theorem arrivals_keep_slots_busy (maxC : Z) sched :
  uint_ok maxC → only_arrivals sched →
  ∃ w, HandleRequests emptyKey sched (initial maxC) = Waiting w
    ∧ (queue (wq w) ≠ [] → concurrency (wq w) = maxConcurrency (wq w)).
Proof.
  intros [Hlo Hhi] Honly.
  pose proof (count_inv_initial (K:=K) maxC Hlo) as Hinv.
  assert (saturated (initial (K:=K) maxC)) as Hsat.
  { intros Hne. by simpl in Hne. }
  revert Honly Hinv Hsat. generalize (initial (K:=K) maxC) as w0.
  induction sched as [|ev sched IH]; intros w0 Honly Hinv Hsat; simpl.
  { by exists w0. }
  assert (only_arrivals sched) as Honly'.
  { intros ev' Hin. apply Honly. by apply elem_of_cons; right. }
  destruct (Honly ev (list_elem_of_here _ _)) as [key ->].
  destruct (decide (key = emptyKey)); [by apply IH|].
  destruct (saturated_queueAndMaybeDispatch maxC key w0 Hhi Hinv Hsat)
    as (w1 & -> & Hinv1 & Hsat1).
  by apply IH.
Qed.

(** *** The invariants along the run loop *)

(** X14: the bounds and the bookkeeping hold along [HandleRequests] itself.
    Wherever a run from a new queue stands, [maxConcurrency] is the
    configured value, the active count is the number of running goroutines
    and at most [maxConcurrency], and [knownKeys] holds exactly the pending
    and the running keys, none of them twice. *)
Theorem run_loop_invariants (maxC : Z) sched w :
  uint_ok maxC →
  final (HandleRequests emptyKey sched (initial maxC)) = Some w →
  maxConcurrency (wq w) = maxC
  ∧ concurrency (wq w) = Z.of_nat (length (jobs w))
  ∧ 0 <= concurrency (wq w) <= maxConcurrency (wq w)
  ∧ (∀ k, is_Some (knownKeys (wq w) !! k) ↔ k ∈ queue (wq w) ∨ k ∈ jobs w)
  ∧ NoDup (queue (wq w) ++ jobs w).
Proof.
  intros Hok Hfin.
  destruct (HandleRequests_invariants emptyKey maxC sched w Hok Hfin)
    as [[Hk Hnd] (Hm & Hc & Hle)].
  split_and!; [done|done|lia|lia|done|done].
Qed.

Lemma remove_first_elem k key (l : list K) :
  k ∈ remove_first key l → k ∈ l.
Proof.
  induction l as [|x l IH]; simpl; [done|].
  destruct (decide (x = key)).
  - intros Hin. by apply elem_of_cons; right.
  - intros [->|Hin]%elem_of_cons; [apply list_elem_of_here|].
    apply elem_of_cons. right. by apply IH.
Qed.

Lemma jobs_called_exec op w w' :
  jobs_called w → exec op w = Some w' → jobs_called w'.
Proof.
  intros Hjc Hex. destruct op as [key| |key]; simpl in Hex.
  - by injection Hex as <-.
  - destruct (admits (wq w)); [|done].
    destruct (queue (wq w)) as [|k0 rest] eqn:Hq.
    { unfold dispatch, pop in Hex. by rewrite Hq in Hex. }
    rewrite (dispatch_cons _ _ _ Hq) in Hex. injection Hex as <-.
    intros k. simpl. rewrite !elem_of_app. intros [Hin|Hin]; [|by right].
    left. by apply Hjc.
  - destruct (decide (key ∈ jobs w)); [|done]. injection Hex as <-.
    intros k Hin. simpl in *. apply Hjc. by eapply remove_first_elem.
Qed.

Lemma jobs_called_run ops : ∀ w w',
  jobs_called w → run ops w = Some w' → jobs_called w'.
Proof.
  induction ops as [|op ops IH]; intros w w' Hjc Hrun; simpl in Hrun.
  - by injection Hrun as <-.
  - destruct (exec op w) as [w1|] eqn:Hex; [|done].
    eapply IH; [|done]. by eapply jobs_called_exec.
Qed.

Lemma arrivals_kept sched : ∀ w w',
  known_inv w → jobs_called w →
  final (HandleRequests emptyKey sched w) = Some w' →
  ∀ k, k ∈ called w ++ queue (wq w)
       ∨ (k ∈ arrivals sched ∧ k ≠ emptyKey) →
       k ∈ called w' ++ queue (wq w').
Proof.
  induction sched as [|ev sched IH]; intros w w' Hinv Hjc; simpl.
  - intros [= <-] k [Hin|[Hin _]]; [done|]. by apply elem_of_nil in Hin.
  - destruct ev as [key| |key].
    + destruct (decide (key = emptyKey)) as [->|Hne].
      * intros Hfin k Hk. apply (IH (warn emptyKey w)); [done|done|done|].
        simpl. destruct Hk as [Hk|[Hk Hkne]]; [by left|]. right.
        apply elem_of_cons in Hk as [->|Hk]; done.
      * destruct (queueAndMaybeDispatch key w) as [w1|msg] eqn:Hqd; [|done].
        destruct (queueAndMaybeDispatch_run _ _ _ Hqd) as [ops Hrun].
        apply queueAndMaybeDispatch_order in Hqd as [Hcq _].
        intros Hfin k Hk.
        apply (IH w1);
          [by eapply known_inv_run|by eapply jobs_called_run|done|].
        destruct Hk as [Hk|[Hk Hkne]].
        { left. rewrite Hcq. apply elem_of_app. by left. }
        apply elem_of_cons in Hk as [->|Hk]; [|by right].
        left. rewrite Hcq. simpl.
        destruct (knownKeys (wq w) !! key) as [b|] eqn:Hlk.
        -- rewrite app_nil_r. destruct Hinv as [Hknown _].
           destruct (proj1 (Hknown key)) as [Hq|Hj]; [by eexists| |].
           ++ apply elem_of_app. by right.
           ++ apply elem_of_app. left. by apply Hjc.
        -- apply elem_of_app. right. apply list_elem_of_here.
    + intros [Hcq _]%cleanup_order k [Hk|[Hk _]].
      * by rewrite Hcq.
      * by apply elem_of_nil in Hk.
    + destruct (decide (key ∈ jobs w)) as [Hin|]; [|done].
      intros Hfin k Hk. apply (IH (complete key w)); [| |done|done].
      * by apply known_inv_complete.
      * intros k' Hk'. simpl in Hk'. apply Hjc.
        by apply (remove_first_elem k' key).
Qed.

(** X15: no arrival is dropped while the run loop is at work.  Wherever a
    run from a new queue stands, every non-empty key that arrived on
    [inputChan] has been handed to the processor or waits in the pending
    slice. *)
Theorem arrivals_called_or_pending (maxC : Z) sched w k :
  final (HandleRequests emptyKey sched (initial maxC)) = Some w →
  k ∈ arrivals sched → k ≠ emptyKey →
  k ∈ called w ∨ k ∈ queue (wq w).
Proof.
  intros Hfin Hin Hne. apply elem_of_app.
  apply (arrivals_kept sched (initial maxC) w); [| |done|by right].
  - apply known_inv_initial.
  - intros k' Hk'. by apply elem_of_nil in Hk'.
Qed.

(** *** The length of the drain phase *)

Lemma cleanup_bounded_inv (maxC : Z) sched : ∀ w w',
  maxC < uint_modulus → count_inv maxC w →
  concurrency (wq w) + Z.of_nat (length (queue (wq w)))
    <= Z.of_nat (length sched) →
  cleanup sched w ≠ Waiting w'.
Proof.
  induction sched as [|ev sched IH]; intros w w' Hmax Hinv Hlen; simpl;
    destruct (cleanup_continues (wq w)) eqn:Hcont; try done;
    apply cleanup_continues_true in Hcont as [Hpos Hne].
  - simpl in Hlen. lia.
  - destruct (maybeDispatch w) as [w1|msg] eqn:Hmd; [|done].
    pose proof (count_inv_maybeDispatch maxC _ _ Hmax Hinv Hmd) as Hinv1.
    assert (concurrency (wq w1) + Z.of_nat (length (queue (wq w1)))
            = concurrency (wq w) + Z.of_nat (length (queue (wq w)))
            ∧ 0 < concurrency (wq w1)) as [Hmeas Hpos1].
    { revert Hmd. destruct Hinv as (Hm & Hc & Hle). unfold maybeDispatch.
      destruct (admits (wq w)) eqn:Hadm; [|by intros [= <-]].
      apply admits_true in Hadm as [Hlt _].
      destruct (queue (wq w)) as [|k rest] eqn:Hq; [done|].
      rewrite (dispatch_cons _ _ _ Hq). intros [= <-]. simpl.
      rewrite (uint_incr_below _ (maxConcurrency (wq w))) by lia. lia. }
    destruct ev as [key| |key]; try done.
    destruct (decide (key ∈ jobs w1)) as [Hin|]; [|done].
    apply IH; [done|by apply count_inv_complete|].
    destruct Hinv1 as (Hm1 & Hc1 & Hle1). simpl.
    rewrite uint_decr_pos by lia. simpl in Hlen. lia.
Qed.

(** X16: the drain phase is bounded.  From a reachable state [cleanup]
    takes at most as many completions as the active count and the length of
    the pending slice add up to: on a schedule that long it does not end up
    waiting on [done]. *)
Theorem cleanup_bounded (maxC : Z) (ops : list (Op K)) w sched w' :
  uint_ok maxC →
  run ops (initial maxC) = Some w →
  concurrency (wq w) + Z.of_nat (length (queue (wq w)))
    <= Z.of_nat (length sched) →
  cleanup sched w ≠ Waiting w'.
Proof.
  intros [Hlo Hhi] Hrun. apply cleanup_bounded_inv with maxC; [done|].
  eapply count_inv_run; [done| |done]. by apply count_inv_initial.
Qed.

End discovery_more.

(** ** Worked runs on sample keys *)

(** C1: draining is incomplete.  [cleanup] loops only while the active
    count is positive and the pending slice is non-empty, so
    [HandleRequests] returns as soon as either is exhausted.  With room for
    one goroutine and arrivals A, B the run returns with B still pending and
    never handed to the processor; with room for two and arrivals A, B, C, A
    it returns while the goroutine of C is still running. *)
Theorem cleanup_returns_before_drained :
  HandleRequests sampleEmpty drain_one (initial 1)
  = Returned
      {| wq := {| concurrency := 0;
                  knownKeys := {[ keyB := true ]};
                  maxConcurrency := 1;
                  queue := [keyB] |};
         jobs := []; called := [keyA]; warned := [] |}
  ∧ HandleRequests sampleEmpty drain_two (initial 2)
    = Returned
        {| wq := {| concurrency := 1;
                    knownKeys := {[ keyC := true ]};
                    maxConcurrency := 2;
                    queue := [] |};
           jobs := [keyC]; called := [keyA; keyB; keyC]; warned := [] |}.
Proof. split; vm_compute; reflexivity. Qed.

(** C2: a completion in the main loop is not followed by the admission
    step.  After arrivals A, B at a queue with room for one goroutine and the
    completion of A, the loop waits with active count 0 and B pending: the
    admission guard holds and nothing has been dispatched. *)
Theorem completion_without_admission :
  HandleRequests sampleEmpty complete_one (initial 1)
  = Waiting
      {| wq := {| concurrency := 0;
                  knownKeys := {[ keyB := true ]};
                  maxConcurrency := 1;
                  queue := [keyB] |};
         jobs := []; called := [keyA]; warned := [] |}
  ∧ admits {| concurrency := 0;
              knownKeys := {[ keyB := true ]};
              maxConcurrency := 1;
              queue := [keyB] |} = true.
Proof. split; vm_compute; reflexivity. Qed.

Lemma concurrency_bounded_witness :
  0 <= concurrency (wq busy_world) <= maxConcurrency (wq busy_world).
Proof.
  apply (concurrency_bounded 1 busy_ops busy_world).
  - lia.
  - split; [lia|reflexivity].
  - vm_compute. reflexivity.
Defined.

Lemma push_known_unchanged_witness :
  is_Some (knownKeys (wq busy_world) !! keyA)
  ∧ push keyA (wq busy_world) = wq busy_world.
Proof.
  assert (is_Some (knownKeys (wq busy_world) !! keyA)) as Hknown.
  { exists true. vm_compute. reflexivity. }
  split; [exact Hknown|].
  exact (proj1 (push_known_unchanged keyA (wq busy_world) Hknown)).
Defined.

Lemma known_keys_exact_witness :
  NoDup (queue (wq busy_world))
  ∧ push keyA (wq busy_world) = wq busy_world.
Proof.
  assert (run busy_ops (initial 1) = Some busy_world) as Hrun.
  { vm_compute. reflexivity. }
  destruct (known_keys_exact 1 busy_ops busy_world Hrun)
    as (_ & Hnd & _ & Hactive).
  split; [exact Hnd|].
  apply Hactive. vm_compute. apply list_elem_of_here.
Defined.

Lemma dispatch_order_fifo_witness :
  accepted busy_ops (initial 1) = called busy_world ++ queue (wq busy_world).
Proof.
  assert (run busy_ops (initial 1) = Some busy_world) as Hrun.
  { vm_compute. reflexivity. }
  exact (proj1 (proj2 (dispatch_order_fifo 1 busy_ops busy_world Hrun))).
Defined.

Lemma acknowledgeJob_wraps_at_zero_witness :
  concurrency (acknowledgeJob keyA (NewQueue 1)) = 18446744073709551615.
Proof.
  exact (proj1 (acknowledgeJob_wraps_at_zero keyA (NewQueue 1) eq_refl)).
Defined.

Lemma zero_max_never_dispatches_witness :
  ∃ w, HandleRequests sampleEmpty zero_max_arrivals (initial 0) = Returned w
    ∧ called w = []
    ∧ keyA ∈ queue (wq w) ∧ keyB ∈ queue (wq w)
    ∧ NoDup (queue (wq w)).
Proof.
  destruct (zero_max_never_dispatches sampleEmpty)
    as (_ & _ & _ & _ & Hruns).
  destruct (Hruns zero_max_arrivals)
    as (w & Hret & _ & Hcalled & _ & _ & Hnd & Hq).
  - intros key Hin. unfold zero_max_arrivals in Hin.
    repeat (apply elem_of_cons in Hin as [?|Hin]; [discriminate|]).
    by apply elem_of_nil in Hin.
  - exists w. split_and!; [|exact Hcalled| | |exact Hnd].
    + apply Hret. unfold zero_max_arrivals.
      do 4 apply list_elem_of_further. apply list_elem_of_here.
    + apply Hq. split; [discriminate|]. simpl. apply list_elem_of_here.
    + apply Hq. split; [discriminate|]. simpl.
      apply list_elem_of_further, list_elem_of_here.
Defined.

(** With [maxConcurrency] 0 the arrivals pile up and nothing runs. *)
Example zero_max_run :
  HandleRequests sampleEmpty
    [Arrive keyA; Arrive keyB; Arrive sampleEmpty; Arrive keyA; Close]
    (initial 0)
  = Returned
      {| wq := {| concurrency := 0;
                  knownKeys := {[ keyA := true; keyB := true ]};
                  maxConcurrency := 0;
                  queue := [keyA; keyB] |};
         jobs := []; called := []; warned := [sampleEmpty] |}.
Proof. vm_compute. reflexivity. Qed.

(** [pop] on an empty and on a non-empty slice. *)
Example pop_empty :
  pop (NewQueue (K:=SampleKey) 1) = Fatal "q.pop() called on empty queue".
Proof. reflexivity. Qed.

Example pop_busy :
  pop (wq busy_world)
  = Ok (keyB, {| concurrency := 1;
                 knownKeys := {[ keyA := true ]};
                 maxConcurrency := 1;
                 queue := [] |}).
Proof. vm_compute. reflexivity. Qed.

(** ** Instances of the further properties *)

Lemma push_pop_roundtrip_witness :
  pop (push keyA (NewQueue 1)) = Ok (keyA, NewQueue 1).
Proof.
  apply (push_pop_roundtrip keyA (NewQueue 1)); reflexivity.
Defined.

Lemma pop_push_commute_witness :
  pop (push keyC (wq busy_world))
  = Ok (keyB, push keyC {| concurrency := 1;
                           knownKeys := delete keyB (knownKeys (wq busy_world));
                           maxConcurrency := 1;
                           queue := [] |}).
Proof.
  apply (pop_push_commute keyC (wq busy_world) keyB []).
  - reflexivity.
  - discriminate.
Defined.

Lemma arrival_dispatched_at_once_witness :
  queueAndMaybeDispatch keyA (initial 1)
  = Ok {| wq := {| concurrency := 0 + 1;
                   knownKeys := <[keyA := true]> ∅;
                   maxConcurrency := 1;
                   queue := [] |};
          jobs := [] ++ [keyA]; called := [] ++ [keyA]; warned := [] |}.
Proof.
  apply (arrival_dispatched_at_once keyA (initial 1)).
  - reflexivity.
  - reflexivity.
  - simpl. lia.
  - reflexivity.
Defined.

Lemma dispatch_keeps_knownKeys_witness :
  ∃ w', dispatch busy_world = Ok w'
    ∧ knownKeys (wq w') = knownKeys (wq busy_world)
    ∧ queue (wq w') = []
    ∧ jobs w' = jobs busy_world ++ [keyB].
Proof.
  apply (dispatch_keeps_knownKeys 1 busy_ops busy_world keyB []).
  - vm_compute. reflexivity.
  - reflexivity.
Defined.

Lemma knownKeys_size_witness :
  Z.of_nat (size (knownKeys (wq busy_world)))
  = Z.of_nat (length (queue (wq busy_world))) + concurrency (wq busy_world).
Proof.
  apply (knownKeys_size 1 busy_ops busy_world).
  - split; [lia|reflexivity].
  - vm_compute. reflexivity.
Defined.

Lemma readmission_after_completion_witness :
  queue (push keyA (wq (complete keyA busy_world))) = [keyB] ++ [keyA].
Proof.
  assert (run busy_ops (initial 1) = Some busy_world) as Hrun.
  { vm_compute. reflexivity. }
  assert (keyA ∈ jobs busy_world) as Hin.
  { apply list_elem_of_here. }
  exact (proj1 (proj2 (proj2
    (readmission_after_completion 1 busy_ops busy_world keyA Hrun Hin)))).
Defined.

Lemma dispatch_then_acknowledge_witness :
  ∃ w1, dispatch busy_world = Ok w1
    ∧ concurrency (acknowledgeJob keyB (wq w1)) = concurrency (wq busy_world)
    ∧ knownKeys (acknowledgeJob keyB (wq w1))
      = delete keyB (knownKeys (wq busy_world))
    ∧ queue (acknowledgeJob keyB (wq w1)) = []
    ∧ maxConcurrency (acknowledgeJob keyB (wq w1))
      = maxConcurrency (wq busy_world).
Proof.
  apply (dispatch_then_acknowledge busy_world keyB []).
  - split; [simpl; lia|reflexivity].
  - reflexivity.
Defined.

Lemma called_subsequence_of_arrivals_witness :
  called warned_world ++ queue (wq warned_world)
    `sublist_of` filter (λ k, k ≠ sampleEmpty) (arrivals mixed_arrivals).
Proof.
  apply (called_subsequence_of_arrivals sampleEmpty 1 mixed_arrivals).
  vm_compute. reflexivity.
Defined.

Lemma warnings_are_empty_arrivals_witness :
  warned warned_world
  = filter (λ k, k = sampleEmpty) (arrivals mixed_arrivals).
Proof.
  apply (warnings_are_empty_arrivals sampleEmpty 1 mixed_arrivals).
  vm_compute. reflexivity.
Defined.

Lemma returns_only_after_close_witness :
  Close ∈ drain_one
  ∧ (concurrency (wq left_world) <= 0 ∨ queue (wq left_world) = []).
Proof.
  apply (returns_only_after_close sampleEmpty drain_one (initial 1)).
  vm_compute. reflexivity.
Defined.

Lemma cleanup_waits_for_running_job_witness :
  jobs busy_world ≠ [] ∧ 0 < concurrency (wq busy_world).
Proof.
  apply (cleanup_waits_for_running_job sampleEmpty 1 close_while_busy).
  - split; [lia|reflexivity].
  - unfold close_while_busy. do 2 apply list_elem_of_further.
    apply list_elem_of_here.
  - vm_compute. reflexivity.
Defined.

Lemma arrivals_keep_slots_busy_witness :
  ∃ w, HandleRequests sampleEmpty mixed_arrivals (initial 1) = Waiting w
    ∧ (queue (wq w) ≠ [] → concurrency (wq w) = maxConcurrency (wq w)).
Proof.
  apply (arrivals_keep_slots_busy sampleEmpty 1 mixed_arrivals).
  - split; [lia|reflexivity].
  - intros ev Hin. unfold mixed_arrivals in Hin.
    repeat (apply elem_of_cons in Hin as [->|Hin]; [by eexists|]).
    by apply elem_of_nil in Hin.
Defined.

Lemma run_loop_invariants_witness :
  concurrency (wq warned_world) = Z.of_nat (length (jobs warned_world))
  ∧ NoDup (queue (wq warned_world) ++ jobs warned_world).
Proof.
  assert (uint_ok 1) as Hok by (split; [lia|reflexivity]).
  assert (final (HandleRequests sampleEmpty mixed_arrivals (initial 1))
          = Some warned_world) as Hfin.
  { vm_compute. reflexivity. }
  destruct (run_loop_invariants sampleEmpty 1 mixed_arrivals warned_world
              Hok Hfin) as (_ & Hc & _ & _ & Hnd).
  exact (conj Hc Hnd).
Defined.

Lemma arrivals_called_or_pending_witness :
  keyB ∈ called warned_world ∨ keyB ∈ queue (wq warned_world).
Proof.
  apply (arrivals_called_or_pending sampleEmpty 1 mixed_arrivals).
  - vm_compute. reflexivity.
  - unfold mixed_arrivals. simpl. do 2 apply list_elem_of_further.
    apply list_elem_of_here.
  - discriminate.
Defined.

Lemma cleanup_bounded_witness :
  cleanup [Done keyA; Done keyB] busy_world ≠ Waiting busy_world.
Proof.
  apply (cleanup_bounded 1 busy_ops busy_world).
  - split; [lia|reflexivity].
  - vm_compute. reflexivity.
  - simpl. lia.
Defined.
